(** * Ledger state machine of the dlog universe

    Shallow embedding of the in-memory ledger code of the dlog repository:
    - [UniverseState] from corelib/src/lib.rs (balances, transfers,
      snapshot folding and the 9-infinity master root);
    - [InfinityBank] from dlog_gold_http/src/omega.rs (a second ledger
      keyed by label strings, with per-tick interest accrual);
    - [UniverseInner] from api/src/main.rs (the block height counter).

    Rust's integer overflow on [u64] / [u128] arithmetic is modelled with
    the overflow-checked semantics of a default (debug) build: an
    overflowing operation panics, written here as [None]. *)

From Stdlib Require Import ZArith NArith Lia.
From Stdlib Require Import Ascii String DecimalString DecimalN DecimalZ.
From stdpp Require Import base gmap strings.

#[local] Open Scope N_scope.

(* ------------------------------------------------------------------ *)
(** ** Machine integers *)

Definition u64_max : N := 2 ^ 64 - 1.
Definition u128_max : N := 2 ^ 128 - 1.

(** [a + b] on [u64] with overflow checks. *)
Definition u64_checked_add (a b : N) : option N :=
  if a + b <=? u64_max then Some (a + b) else None.

(** [u64::saturating_add]. *)
Definition u64_saturating_add (a b : N) : N := N.min (a + b) u64_max.

(** [a + b] and [a * b] on [u128] with overflow checks. *)
Definition u128_checked_add (a b : N) : option N :=
  if a + b <=? u128_max then Some (a + b) else None.
Definition u128_checked_mul (a b : N) : option N :=
  if a * b <=? u128_max then Some (a * b) else None.

(** Decimal rendering of Rust's [Display] for unsigned and signed integers. *)
Definition fmt_unsigned (n : N) : string :=
  NilEmpty.string_of_uint (N.to_uint n).
Definition fmt_signed (z : Z) : string :=
  NilEmpty.string_of_int (Z.to_int z).

(* ------------------------------------------------------------------ *)
(** ** Types of the [spec] crate used by corelib *)

(** Modelled from the spec: [LabelId], [Balance], [TransferTx] and
    [SpecError] are imported by corelib/src/lib.rs from the [spec] crate but
    are not defined in its sources. The spec's data model: an account
    identifier is a compound key of two strings, a balance is a non-negative
    integer amount (arbitrary precision, so no overflow is modelled), a
    transfer carries [from], [to] and [amount], and the ledger errors are
    [InvalidAmount], [InsufficientBalance] (plus a generic message). *)
Record LabelId := mkLabelId { phone : string; label : string }.

#[global] Instance LabelId_eq_dec : EqDecision LabelId.
Proof. solve_decision. Defined.

#[global] Instance LabelId_countable : Countable LabelId.
Proof.
  apply (inj_countable' (fun l => (phone l, label l))
                        (fun p => mkLabelId p.1 p.2)).
  by intros [].
Defined.

Record Balance := mkBalance { amount : N }.

Record TransferTx := mkTransferTx { from : LabelId; to : LabelId; tx_amount : N }.

Inductive SpecError :=
| InvalidAmount
| InsufficientBalance
| Generic (msg : string).

(** [UniverseSnapshot] as built in [fold_snapshot]. *)
Record UniverseSnapshot := mkUniverseSnapshot {
  height : N;
  master_root : string;
  timestamp_ms : Z
}.

(* ------------------------------------------------------------------ *)
(** ** corelib: [UniverseState] *)

Module UniverseState.

(** The fields read or written by the ledger operations; [land_locks] and
    [mc_players] are never touched by them and are left out. *)
Record t := mk {
  balances : gmap LabelId Balance;
  last_snapshot : option UniverseSnapshot
}.

Definition new : t := mk ∅ None.

(** [balance_of]: the stored balance, zero if absent. *)
Definition balance_of (s : t) (l : LabelId) : Balance :=
  default (mkBalance 0) (balances s !! l).

(** [set_balance]: [HashMap::insert]. *)
Definition set_balance (s : t) (l : LabelId) (b : Balance) : t :=
  mk (<[l := b]> (balances s)) (last_snapshot s).

(** [apply_transfer]: [&mut self] is threaded as an explicit state; the
    state is only returned on [Ok]. On [Err] the code returns before any
    [set_balance], so the state is the input state. *)
Definition apply_transfer (s : t) (tx : TransferTx) : t * (unit + SpecError) :=
  if tx_amount tx =? 0 then (s, inr InvalidAmount)
  else
    let from_balance := balance_of s (from tx) in
    if amount from_balance <? tx_amount tx then (s, inr InsufficientBalance)
    else
      let to_balance := balance_of s (to tx) in
      let new_from := mkBalance (amount from_balance - tx_amount tx) in
      let new_to := mkBalance (amount to_balance + tx_amount tx) in
      let s1 := set_balance s (from tx) new_from in
      let s2 := set_balance s1 (to tx) new_to in
      (s2, inl tt).

End UniverseState.

Module Snapshot.
Import UniverseState.

(** [encode_master_root]: the pattern
    [;∞;∞;∞;∞;∞;∞;∞;∞;∞;height;<H>;time;<T>;]. *)
Definition encode_master_root (h : N) (timestamp_ms : Z) : string :=
  ";∞;∞;∞;∞;∞;∞;∞;∞;∞;height;" ++ fmt_unsigned h ++ ";time;"
    ++ fmt_signed timestamp_ms ++ ";".

(** [fold_snapshot]: the wall clock read by [current_timestamp_ms] is an
    explicit input [now_ms] (already cast to [i64]). The height is the last
    snapshot's height plus one ([u64] addition, which panics on overflow),
    or 0 when there is no snapshot yet. *)
Definition fold_snapshot (s : t) (now_ms : Z) : option (t * UniverseSnapshot) :=
  let new_height :=
    match last_snapshot s with
    | Some sn => u64_checked_add (height sn) 1
    | None => Some 0
    end in
  match new_height with
  | None => None
  | Some h =>
      let snapshot := mkUniverseSnapshot h (encode_master_root h now_ms) now_ms in
      Some (mk (balances s) (Some snapshot), snapshot)
  end.

(** The height a [UniverseState] currently carries. *)
Definition current_height (s : t) : option N :=
  option_map height (last_snapshot s).

End Snapshot.

(* ------------------------------------------------------------------ *)
(** ** dlog_gold_http: [InfinityBank] *)

Module InfinityBank.

Record t := mk {
  ledger : gmap string N;
  interest_apy_bps : N;
  last_tick_ms : Z;
  per_tick_factor_ppm : N
}.

Definition phi_tick_factor_ppm : N := 1000020.

(** [Default::default], with [now_ms()] as input. *)
Definition default_bank (now_ms : Z) : t :=
  mk (<[";9132077554;comet;" := 1000000]>
        (<[";9132077554;vortex1;" := 5000000]>
           (<[";9132077554;fun;" := 80000]> ∅)))
     6180 now_ms phi_tick_factor_ppm.

(** The inner loop of [accrue_interest] on one balance:
    [for _ in 0..ticks { *balance = ( *balance * factor) / 1_000_000; }]
    with the [u128] product overflow-checked. *)
Fixpoint accrue_loop (ticks : nat) (factor b : N) : option N :=
  match ticks with
  | O => Some b
  | S k =>
      match u128_checked_mul b factor with
      | None => None
      | Some p => accrue_loop k factor (p / 1000000)
      end
  end.

(** The number of ticks: [((now - *last) / 8).max(1) as u64]; the [i64]
    division truncates toward zero ([Z.quot]). *)
Definition tick_count (now last : Z) : nat :=
  Z.to_nat (Z.max (Z.quot (now - last) 8) 1).

(** [accrue_interest]: returns early when [now <= *last]; otherwise every
    balance of the ledger goes through [accrue_loop] and [last] becomes
    [now]. A panic in the loop (a [u128] overflow) is [None]. *)
Definition accrue_interest (now : Z) (b : t) : option t :=
  if (now <=? last_tick_ms b)%Z then Some b
  else
    let ticks := tick_count now (last_tick_ms b) in
    let factor := per_tick_factor_ppm b in
    if bool_decide (map_Forall (fun _ v => is_Some (accrue_loop ticks factor v))
                      (ledger b))
    then Some (mk ((fun v => default 0 (accrue_loop ticks factor v)) <$> ledger b)
                  (interest_apy_bps b) now factor)
    else None.

(** [balance_of]: [unwrap_or_default] gives 0 for an absent label. *)
Definition balance_of (b : t) (l : string) : N := default 0 (ledger b !! l).

(** The fields of the JSON payload read by [handle_transfer]: [from] and
    [to] via [as_str], [amount] via [as_u64]. *)
Record TransferPayload := mkPayload {
  p_from : option string;
  p_to : option string;
  p_amount : option N
}.

(** [handle_transfer]: the reply string and the new bank; [None] is the
    panic of an overflowing [to_balance + amount] on [u128]. *)
Definition handle_transfer (b : t) (payload : TransferPayload) : option (t * string) :=
  let from := default ";<missing-from>;" (p_from payload) in
  let to := default ";<missing-to>;" (p_to payload) in
  let amount := default 0 (p_amount payload) in
  if amount =? 0 then Some (b, "bank::transfer rejected (amount=0)")
  else
    let from_balance := default 0 (ledger b !! from) in
    if from_balance <? amount then
      Some (b, "bank::transfer rejected (" ++ from ++ " insufficient: "
                 ++ fmt_unsigned from_balance ++ " < " ++ fmt_unsigned amount ++ ")")%string
    else
      let to_balance := default 0 (ledger b !! to) in
      match u128_checked_add to_balance amount with
      | None => None
      | Some new_to =>
          let l1 := <[from := from_balance - amount]> (ledger b) in
          let l2 := <[to := new_to]> l1 in
          Some (mk l2 (interest_apy_bps b) (last_tick_ms b) (per_tick_factor_ppm b),
                ("bank::transfer " ++ fmt_unsigned amount ++ " " ++ from ++ " → "
                  ++ to ++ " ok")%string)
      end.

End InfinityBank.

(* ------------------------------------------------------------------ *)
(** ** api: [UniverseInner] (the block height counter) *)

Module UniverseInner.

(** Only [block_height] is mutable; the other fields are constant policy
    descriptions and are left out. *)
Record t := mk { block_height : N }.

Definition new : t := mk 0.

(** [tick_once]: [saturating_add(1)]. *)
Definition tick_once (u : t) : t := mk (u64_saturating_add (block_height u) 1).

(** The operations of [UniverseInner] on [&mut self] / [&self]. *)
Inductive op := OpTick | OpSnapshot.

Definition step (u : t) (o : op) : t :=
  match o with
  | OpTick => tick_once u
  | OpSnapshot => u
  end.

Definition run (u : t) (os : list op) : t := fold_left step os u.

End UniverseInner.

(* ------------------------------------------------------------------ *)
(** ** Observations used to state the properties *)

Module Ledger.
Import UniverseState.

(** Total supply: the sum of all balances of the map. *)
Definition total_supply (m : gmap LabelId Balance) : N :=
  map_fold (fun _ b acc => amount b + acc) 0 m.

(** A sequence of transfers applied one after the other; [None] as soon
    as one of them returns [Err]. *)
Fixpoint run_transfers (s : t) (txs : list TransferTx) : option t :=
  match txs with
  | [] => Some s
  | tx :: rest =>
      match apply_transfer s tx with
      | (s', inl _) => run_transfers s' rest
      | (_, inr _) => None
      end
  end.

End Ledger.

(** The arithmetic reading of the per-tick update of [accrue_interest]:
    [n] iterations of [b |-> floor (b * factor / 1_000_000)] on unbounded
    naturals. *)
Fixpoint iter_floor (n : nat) (factor b : N) : N :=
  match n with
  | O => b
  | S k => iter_floor k factor (b * factor / 1000000)
  end.

(** Whether a string contains no [';'] (decimal renderings never do). *)
Fixpoint semi_free (s : string) : bool :=
  match s with
  | EmptyString => true
  | String c s' => negb (Ascii.eqb c ";") && semi_free s'
  end.

(** Number of [tick_once] calls in a sequence of [UniverseInner] calls. *)
Definition count_ticks (os : list UniverseInner.op) : nat :=
  length (List.filter (fun o => match o with UniverseInner.OpTick => true | _ => false end) os).

(* ------------------------------------------------------------------ *)
(** ** String helpers of the Rust standard library *)

Module RustStr.

(** [str::split(c)]: the pieces between occurrences of [c], empty pieces
    included ([""] splits into [[""]]). *)
Fixpoint split_on (c : ascii) (s : string) : list string :=
  match s with
  | EmptyString => [EmptyString]
  | String x s' =>
      let rest := split_on c s' in
      if ascii_dec x c then EmptyString :: rest
      else match rest with
           | [] => [String x EmptyString]
           | r :: rs => String x r :: rs
           end
  end.

(** [<[&str]>::join(sep)]. *)
Fixpoint join (sep : string) (l : list string) : string :=
  match l with
  | [] => EmptyString
  | [x] => x
  | x :: xs => (x ++ sep ++ join sep xs)%string
  end.

(** [u8::to_ascii_lowercase] on one byte: only ['A'..'Z'] change. *)
Definition lower_ascii (a : ascii) : ascii :=
  let n := N_of_ascii a in
  if (65 <=? n) && (n <=? 90) then ascii_of_N (n + 32) else a.

(** [str::to_ascii_lowercase]. *)
Fixpoint to_ascii_lowercase (s : string) : string :=
  match s with
  | EmptyString => EmptyString
  | String x s' => String (lower_ascii x) (to_ascii_lowercase s')
  end.

(** Whether [c] occurs in [s]. *)
Fixpoint has_char (c : ascii) (s : string) : bool :=
  match s with
  | EmptyString => false
  | String x s' => if ascii_dec x c then true else has_char c s'
  end.

(** [str::trim_start_matches(c)] and [str::trim_end_matches(c)]. *)
Fixpoint trim_start (c : ascii) (s : string) : string :=
  match s with
  | String x s' => if ascii_dec x c then trim_start c s' else s
  | EmptyString => EmptyString
  end.

Fixpoint trim_end (c : ascii) (s : string) : string :=
  match s with
  | EmptyString => EmptyString
  | String x s' =>
      match trim_end c s' with
      | EmptyString => if ascii_dec x c then EmptyString else String x EmptyString
      | r => String x r
      end
  end.

(** [str::trim_matches(c)]. *)
Definition trim_matches (c : ascii) (s : string) : string := trim_end c (trim_start c s).

End RustStr.

(* ------------------------------------------------------------------ *)
(** ** Base-8 rendering *)

Module Octal.

(** Prepend the base-8 digits of [n] to [acc], most significant first;
    [fuel] bounds the number of digits. *)
Fixpoint octal_digits (fuel : nat) (n : N) (acc : string) : string :=
  match fuel with
  | O => acc
  | S f =>
      let acc' := String (ascii_of_N (48 + n mod 8)) acc in
      if n <? 8 then acc' else octal_digits f (n / 8) acc'
  end.

(** Base-8 text of a natural number without prefix, ["0"] for zero: Rust's
    [format!("{:o}", value)] and [BigUint::to_str_radix(8)]. The fuel, one
    more than the bit length, exceeds the number of octal digits. *)
Definition to_octal (value : N) : string :=
  octal_digits (S (N.to_nat (N.size value))) value EmptyString.

(** api/src/main.rs [to_octal_u64]. *)
Definition to_octal_u64 (value : N) : string := to_octal value.

(** Reading base-8 text back: the value of a digit, and of a digit string
    (most significant first) appended to the accumulator [acc]. *)
Definition octal_digit_value (c : ascii) : option N :=
  let n := N_of_ascii c in
  if (48 <=? n) && (n <? 56) then Some (n - 48) else None.

Fixpoint octal_value (acc : N) (s : string) : option N :=
  match s with
  | EmptyString => Some acc
  | String c s' =>
      match octal_digit_value c with
      | Some d => octal_value (acc * 8 + d) s'
      | None => None
      end
  end.

(** api/src/main.rs [encode_octal]: the [OctalEncoding] reply. *)
Record OctalEncoding := mkOctalEncoding {
  value_decimal : N; value_octal : string; base : N
}.

Definition CANONICAL_BASE : N := 8.

Definition encode_octal (value : N) : OctalEncoding :=
  mkOctalEncoding value (to_octal_u64 value) CANONICAL_BASE.

End Octal.

(* ------------------------------------------------------------------ *)
(** ** corelib: Ω filesystem path and shaless encoding *)

Module OmegaPath.

Record LabelUniversePath := mkLabelUniversePath {
  lup_phone : string; lup_label : string; path : string
}.

(** [label_universe_path]: [;phone;label;∞;∞;∞;∞;∞;∞;∞;∞;hash;]. *)
Definition label_universe_path (phone label : string) : LabelUniversePath :=
  mkLabelUniversePath phone label
    (";" ++ phone ++ ";" ++ label ++ ";∞;∞;∞;∞;∞;∞;∞;∞;hash;")%string.

(** shaless.rs [infinity_base]: [BigUint::from_bytes_be] then
    [to_str_radix(8)], wrapped as [;∞;sha-less;<base8>;]. *)
Definition from_bytes_be (bytes : list Byte.byte) : N :=
  fold_left (fun acc b => acc * 256 + Byte.to_N b) bytes 0.

Definition infinity_base (hash : list Byte.byte) : string :=
  (";∞;sha-less;" ++ Octal.to_octal (from_bytes_be hash) ++ ";")%string.

End OmegaPath.

(* ------------------------------------------------------------------ *)
(** ** dlog_gold_http: the Ω services behind the HTTP-4 router *)

Module OmegaRouter.
Import RustStr.

Inductive FrameKind :=
| TickFrame | Query | Event | MineJob | MineResult | Dns | Audio | Game | Input.

(** The fields of the JSON [payload] that the services read. *)
Record FramePayload := mkFramePayload {
  pl_kind : option string;
  pl_label : option string;
  pl_transfer : InfinityBank.TransferPayload
}.

Record FrameEnvelope := mkFrameEnvelope {
  session_id : string;
  seq : N;
  namespace : string;
  kind : FrameKind;
  payload : FramePayload
}.

(** [InfinityBank::handle]: interest is accrued first (the wall clock is
    the input [now]), then the payload's [kind] selects the reply. *)
Definition bank_handle (now : Z) (b : InfinityBank.t) (frame : FrameEnvelope)
    : option (InfinityBank.t * string) :=
  match InfinityBank.accrue_interest now b with
  | None => None
  | Some b1 =>
      let k := default "unknown" (pl_kind (payload frame)) in
      if String.eqb k "balance_query" then
        let label := default ";<unknown>;" (pl_label (payload frame)) in
        Some (b1, ("bank::balance " ++ label ++ " = "
                     ++ fmt_unsigned (InfinityBank.balance_of b1 label))%string)
      else if String.eqb k "transfer" then
        InfinityBank.handle_transfer b1 (pl_transfer (payload frame))
      else
        Some (b1, ("bank::" ++ trim_matches ";" (namespace frame) ++ " routed (seq "
                     ++ fmt_unsigned (seq frame) ++ ")")%string)
  end.

(** [MiningDispatch::handle], [SpeakerEngine::handle], [GameEngine::handle]. *)
Definition mining_handle (frame : FrameEnvelope) : string :=
  match kind frame with
  | MineJob => "mining dispatched job seq " ++ fmt_unsigned (seq frame)
  | MineResult => "mining verified result seq " ++ fmt_unsigned (seq frame)
  | _ => "mining received unexpected frame"
  end%string.

Definition speaker_handle (frame : FrameEnvelope) : string :=
  ("speaker scheduled audio burst for namespace " ++ namespace frame)%string.

Definition game_handle (frame : FrameEnvelope) : string :=
  ("game tick routed for " ++ namespace frame ++ " (seq " ++ fmt_unsigned (seq frame)
     ++ ")")%string.

Record DnsRecord := mkDnsRecord {
  omega_path : string; target : string; description : string
}.

(** [DnsRouter::canonical_key]: the non-empty [';']-separated segments,
    lowercased, joined with ['.']. *)
Definition canonical_key (ns : string) : string :=
  join "." (map to_ascii_lowercase
              (List.filter (fun seg => negb (String.eqb seg "")) (split_on ";" ns))).

(** The [while parts.len() > 1 { parts.pop(); fallbacks.push(parts.join(".")) }]
    loop of [DnsRouter::fallback_keys]; [fuel] bounds the iterations. *)
Fixpoint fallback_loop (fuel : nat) (parts : list string) : list string :=
  match fuel with
  | O => []
  | S f =>
      if Nat.ltb 1 (length parts) then
        let p := removelast parts in join "." p :: fallback_loop f p
      else []
  end.

Definition fallback_keys (key : string) : list string :=
  let parts := split_on "." key in fallback_loop (length parts) parts.

(** The first fallback key that has a record. *)
Fixpoint first_record (records : gmap string DnsRecord) (keys : list string)
    : option DnsRecord :=
  match keys with
  | [] => None
  | k :: ks => match records !! k with Some r => Some r | None => first_record records ks end
  end.

(** [DnsRouter::resolve]. *)
Definition resolve (records : gmap string DnsRecord) (ns : string) : string :=
  let key := canonical_key ns in
  match records !! key with
  | Some r => ("dns::" ++ key ++ " → " ++ target r ++ " (" ++ description r ++ ")")%string
  | None =>
      match first_record records (fallback_keys key) with
      | Some r => ("dns::" ++ key ++ " → " ++ target r ++ " (via " ++ omega_path r ++ ")")%string
      | None => ("dns::" ++ key ++ " → (unmapped) request router-registration")%string
      end
  end.

(** [DnsRouter::default]: each record under the canonical key of its path. *)
Definition default_records : list DnsRecord := [
  mkDnsRecord ";∞;dns;router;" "omega.dns.router" "Omega path router";
  mkDnsRecord ";∞;bank;infinity;" "omega.bank.infinity" "Gravity-backed Infinity bank";
  mkDnsRecord ";∞;bank;gravity;router;" "omega.bank.gravity" "VORTEX/COMET gravity router";
  mkDnsRecord ";∞;speaker;engine;" "omega.audio.stack" "Omega speaker engine";
  mkDnsRecord ";∞;game;engine;" "omega.game.engine" "Simulation + gameplay kernel";
  mkDnsRecord ";∞;mining;dispatch;" "omega.mining.dispatch" "Hash dispatch + silicon rails";
  mkDnsRecord ";∞;mining;result;" "omega.mining.result" "Mining result verifier"
].

Definition default_dns : gmap string DnsRecord :=
  fold_left (fun m r => <[canonical_key (omega_path r) := r]> m) default_records ∅.

(** [OmegaServices]: the DNS records and the bank, the only stateful parts. *)
Record OmegaServices := mkOmegaServices {
  dns : gmap string DnsRecord;
  banking : InfinityBank.t
}.

(** [OmegaServices::dispatch]: one note per frame; [None] is a panic of
    the bank. *)
Definition dispatch (now : Z) (svc : OmegaServices) (frame : FrameEnvelope)
    : option (OmegaServices * list string) :=
  match kind frame with
  | Dns => Some (svc, [resolve (dns svc) (namespace frame)])
  | MineJob | MineResult => Some (svc, [mining_handle frame])
  | Audio => Some (svc, [speaker_handle frame])
  | Game | TickFrame => Some (svc, [game_handle frame])
  | Query | Event =>
      match bank_handle now (banking svc) frame with
      | Some (b', note) => Some (mkOmegaServices (dns svc) b', [note])
      | None => None
      end
  | Input => Some (svc, ["input frame buffered"%string])
  end.

End OmegaRouter.

(* ================================================================== *)
(** * Properties *)

(* ------------------------------------------------------------------ *)
(** ** Supporting lemmas on transfers *)

Section TransferFacts.
Import UniverseState Ledger.

Lemma total_supply_insert (m : gmap LabelId Balance) (k : LabelId) (v : Balance) :
  total_supply (<[k := v]> m) + amount (default (mkBalance 0) (m !! k))
  = total_supply m + amount v.
Proof.
  unfold total_supply.
  destruct (m !! k) as [w|] eqn:Hk; simpl.
  - rewrite <- (insert_id m k w Hk) at 2.
    rewrite <- (insert_delete_eq m k v), <- (insert_delete_eq m k w).
    rewrite !map_fold_insert_L; try apply lookup_delete_eq;
      try (intros; lia).
  - rewrite map_fold_insert_L; [lia | intros; lia | exact Hk].
Qed.

Lemma apply_transfer_error (s : t) (tx : TransferTx) (e : SpecError) (s' : t) :
  apply_transfer s tx = (s', inr e) -> s' = s.
Proof.
  unfold apply_transfer.
  destruct (tx_amount tx =? 0); [congruence|].
  destruct (amount (balance_of s (from tx)) <? tx_amount tx); congruence.
Qed.

Lemma apply_transfer_ok_distinct (s : t) (tx : TransferTx) :
  from tx <> to tx -> 0 < tx_amount tx ->
  tx_amount tx <= amount (balance_of s (from tx)) ->
  apply_transfer s tx =
    (mk (<[to tx := mkBalance (amount (balance_of s (to tx)) + tx_amount tx)]>
           (<[from tx := mkBalance (amount (balance_of s (from tx)) - tx_amount tx)]>
              (balances s)))
        (last_snapshot s), inl tt).
Proof.
  intros Hne Hpos Hle. unfold apply_transfer.
  destruct (N.eqb_spec (tx_amount tx) 0); [lia|].
  destruct (N.ltb_spec (amount (balance_of s (from tx))) (tx_amount tx)); [lia|].
  reflexivity.
Qed.

(** Between distinct accounts a successful transfer conserves the supply. *)
Lemma apply_transfer_conserves_distinct (s s' : t) (tx : TransferTx) (u : unit) :
  from tx <> to tx -> apply_transfer s tx = (s', inl u) ->
  total_supply (balances s') = total_supply (balances s).
Proof.
  intros Hne H.
  unfold apply_transfer in H.
  destruct (N.eqb_spec (tx_amount tx) 0); [congruence|].
  destruct (N.ltb_spec (amount (balance_of s (from tx))) (tx_amount tx)); [congruence|].
  inversion H; subst; clear H; simpl.
  pose proof (total_supply_insert
                (<[from tx := mkBalance (amount (balance_of s (from tx)) - tx_amount tx)]>
                   (balances s)) (to tx)
                (mkBalance (amount (balance_of s (to tx)) + tx_amount tx))) as H1.
  pose proof (total_supply_insert (balances s) (from tx)
                (mkBalance (amount (balance_of s (from tx)) - tx_amount tx))) as H2.
  rewrite lookup_insert_ne in H1 by congruence.
  unfold balance_of in *. simpl in *. lia.
Qed.

Lemma run_transfers_conserves_distinct (s s' : t) (txs : list TransferTx) :
  Forall (fun tx => from tx <> to tx) txs -> run_transfers s txs = Some s' ->
  total_supply (balances s') = total_supply (balances s).
Proof.
  revert s. induction txs as [|tx rest IH]; intros s Hd H; simpl in H.
  - congruence.
  - inversion Hd; subst.
    destruct (apply_transfer s tx) as [s1 [u|e]] eqn:E; [|congruence].
    rewrite (IH s1); auto.
    eapply apply_transfer_conserves_distinct; eauto.
Qed.

End TransferFacts.

(* ------------------------------------------------------------------ *)
(** ** Transfers *)

Module TransferClaims.
Import UniverseState Ledger.

Definition genesis : LabelId := mkLabelId "TEST" "genesis".
Definition seeded : t := set_balance new genesis (mkBalance 100).
Definition self_tx : TransferTx := mkTransferTx genesis genesis 50.

Definition seeded_bank : InfinityBank.t :=
  InfinityBank.mk (<[";TEST;genesis;" := 100]> ∅) 6180 0 InfinityBank.phi_tick_factor_ppm.
Definition self_payload : InfinityBank.TransferPayload :=
  InfinityBank.mkPayload (Some ";TEST;genesis;") (Some ";TEST;genesis;") (Some 50).

(** C1 (code_bug). A transfer of 50 from an account holding 100 to itself
    succeeds, but the account ends with 150: debiting then crediting by 50
    would leave 100. The credit is computed from the receiver balance read
    before the debit was written, in [apply_transfer] and in
    [InfinityBank::handle_transfer] alike. *)
Theorem transfer_self_debit_lost :
  apply_transfer seeded self_tx
    = (set_balance seeded genesis (mkBalance 150), inl tt)
  /\ balance_of (fst (apply_transfer seeded self_tx)) genesis = mkBalance 150
  /\ option_map (fun r => InfinityBank.balance_of (fst r) ";TEST;genesis;")
       (InfinityBank.handle_transfer seeded_bank self_payload) = Some 150.
Proof.
  split; [|split]; vm_compute; reflexivity.
Qed.

(** C2. The transfer fails with [InvalidAmount] exactly when the amount is
    zero, with [InsufficientBalance] exactly when the amount is positive
    and above the sender's balance, and on an error the state (hence every
    balance) is the input state. The same two rejections of
    [InfinityBank::handle_transfer] leave its bank unchanged. *)
Theorem transfer_errors_all_or_nothing (s : t) (tx : TransferTx)
    (b : InfinityBank.t) (p : InfinityBank.TransferPayload) :
  (snd (apply_transfer s tx) = inr InvalidAmount <-> tx_amount tx = 0)
  /\ (snd (apply_transfer s tx) = inr InsufficientBalance
      <-> 0 < tx_amount tx /\ amount (balance_of s (from tx)) < tx_amount tx)
  /\ (forall e, snd (apply_transfer s tx) = inr e -> fst (apply_transfer s tx) = s)
  /\ (default 0 (InfinityBank.p_amount p) = 0 ->
        InfinityBank.handle_transfer b p = Some (b, "bank::transfer rejected (amount=0)"))
  /\ (0 < default 0 (InfinityBank.p_amount p) ->
      InfinityBank.balance_of b (default ";<missing-from>;" (InfinityBank.p_from p))
        < default 0 (InfinityBank.p_amount p) ->
      exists msg, InfinityBank.handle_transfer b p = Some (b, msg)).
Proof.
  unfold apply_transfer, InfinityBank.handle_transfer, InfinityBank.balance_of.
  destruct (N.eqb_spec (tx_amount tx) 0) as [H0|H0];
    [|destruct (N.ltb_spec (amount (balance_of s (from tx))) (tx_amount tx)) as [H1|H1]];
    simpl; (split; [split; intros; try congruence; lia|]);
    (split; [split; intros; try congruence; lia|]);
    (split; [intros e He; congruence|]);
    (split;
     [intros Hz; rewrite Hz; reflexivity
     |intros Hp Hlt; destruct (N.eqb_spec (default 0 (InfinityBank.p_amount p)) 0); [lia|];
      destruct (N.ltb_spec (default 0 (InfinityBank.ledger b !!
                   default ";<missing-from>;" (InfinityBank.p_from p)))
                 (default 0 (InfinityBank.p_amount p))); [eexists; reflexivity|lia]]).
Qed.

(** C3 (code_bug). A self-transfer of a positive amount not above the
    balance succeeds but adds the amount to the account instead of leaving
    it unchanged. *)
Theorem self_transfer_credits_amount (s : t) (a : LabelId) (n : N)
    (Hpos : 0 < n) (Hle : n <= amount (balance_of s a)) :
  apply_transfer s (mkTransferTx a a n)
    = (set_balance s a (mkBalance (amount (balance_of s a) + n)), inl tt)
  /\ amount (balance_of (fst (apply_transfer s (mkTransferTx a a n))) a)
     = amount (balance_of s a) + n.
Proof.
  unfold apply_transfer; simpl.
  destruct (N.eqb_spec n 0); [lia|].
  destruct (N.ltb_spec (amount (balance_of s a)) n); [lia|].
  split.
  - unfold set_balance; simpl. f_equal. f_equal. apply insert_insert_eq.
  - unfold balance_of, set_balance; simpl. rewrite lookup_insert_eq. reflexivity.
Qed.

Lemma self_transfer_credits_amount_witness :
  0 < 50 /\ 50 <= amount (balance_of seeded genesis)
  /\ amount (balance_of (fst (apply_transfer seeded (mkTransferTx genesis genesis 50)))
               genesis) = 150.
Proof.
  split; [lia|]. split; [vm_compute; discriminate|].
  destruct (self_transfer_credits_amount seeded genesis 50) as [_ H];
    [lia | vm_compute; discriminate |].
  rewrite H. vm_compute. reflexivity.
Defined.

(** C4 (code_bug). The one-transfer sequence [self_tx] succeeds on
    [seeded] and raises the total supply from 100 to 150. *)
Theorem self_transfer_breaks_conservation :
  run_transfers seeded [self_tx] = Some (set_balance seeded genesis (mkBalance 150))
  /\ total_supply (balances seeded) = 100
  /\ total_supply (balances (set_balance seeded genesis (mkBalance 150))) = 150.
Proof.
  split; [|split]; vm_compute; reflexivity.
Qed.

(** C9. [balance_of] is the stored balance, or zero when the account has
    no entry, in both ledgers; it is a total function of the state, which
    it returns no new version of ([&self] in the source). *)
Theorem balance_of_stored_or_zero (s : t) (l : LabelId)
    (b : InfinityBank.t) (k : string) :
  balance_of s l = match balances s !! l with Some v => v | None => mkBalance 0 end
  /\ InfinityBank.balance_of b k
     = match InfinityBank.ledger b !! k with Some v => v | None => 0 end.
Proof.
  unfold balance_of, InfinityBank.balance_of.
  split; [destruct (balances s !! l) | destruct (InfinityBank.ledger b !! k)]; reflexivity.
Qed.

End TransferClaims.

(* ------------------------------------------------------------------ *)
(** ** Snapshot digests *)

Section Rendering.

Lemma string_app_cancel_l (p a b : string) :
  (p ++ a)%string = (p ++ b)%string -> a = b.
Proof. induction p as [|c p IH]; simpl; [auto | intros H; inversion H; auto]. Qed.

Lemma semi_free_string_of_uint (d : Decimal.uint) :
  semi_free (NilEmpty.string_of_uint d) = true.
Proof. induction d; simpl; auto. Qed.

Lemma semi_free_split (a b x y : string) :
  semi_free a = true -> semi_free b = true ->
  (a ++ String ";" x)%string = (b ++ String ";" y)%string -> a = b.
Proof.
  revert b. induction a as [|c a IH]; intros [|c' b] Ha Hb H; simpl in *.
  - reflexivity.
  - inversion H; subst. discriminate.
  - inversion H; subst. discriminate.
  - apply andb_prop in Ha as [_ Ha]. apply andb_prop in Hb as [_ Hb].
    inversion H; subst. f_equal. eauto.
Qed.

Lemma fmt_unsigned_inj (h1 h2 : N) : fmt_unsigned h1 = fmt_unsigned h2 -> h1 = h2.
Proof.
  unfold fmt_unsigned. intros H.
  assert (Hu : N.to_uint h1 = N.to_uint h2).
  { apply (f_equal NilEmpty.uint_of_string) in H.
    rewrite !NilEmpty.usu in H. congruence. }
  rewrite <- (DecimalN.Unsigned.of_to h1), <- (DecimalN.Unsigned.of_to h2), Hu.
  reflexivity.
Qed.

Lemma encode_master_root_height_inj (h1 h2 : N) (t1 t2 : Z) :
  Snapshot.encode_master_root h1 t1 = Snapshot.encode_master_root h2 t2 -> h1 = h2.
Proof.
  unfold Snapshot.encode_master_root. intros H.
  apply string_app_cancel_l in H.
  apply fmt_unsigned_inj.
  eapply semi_free_split; [apply semi_free_string_of_uint
                          | apply semi_free_string_of_uint | exact H].
Qed.

Lemma semi_free_string_of_int (d : Decimal.signed_int) :
  semi_free (NilEmpty.string_of_int d) = true.
Proof. destruct d; simpl; apply semi_free_string_of_uint. Qed.

Lemma fmt_signed_inj (z1 z2 : Z) : fmt_signed z1 = fmt_signed z2 -> z1 = z2.
Proof.
  unfold fmt_signed. intros H.
  assert (Hi : Z.to_int z1 = Z.to_int z2).
  { apply (f_equal NilEmpty.int_of_string) in H.
    rewrite !NilEmpty.isi in H. congruence. }
  rewrite <- (DecimalZ.of_to z1), <- (DecimalZ.of_to z2), Hi.
  reflexivity.
Qed.

Lemma encode_master_root_time_inj (h : N) (t1 t2 : Z) :
  Snapshot.encode_master_root h t1 = Snapshot.encode_master_root h t2 -> t1 = t2.
Proof.
  unfold Snapshot.encode_master_root. intros H.
  apply string_app_cancel_l, string_app_cancel_l, string_app_cancel_l in H.
  apply fmt_signed_inj.
  eapply semi_free_split; [apply semi_free_string_of_int
                          | apply semi_free_string_of_int | exact H].
Qed.

End Rendering.

Module SnapshotClaims.
Import UniverseState Snapshot.

Definition root_of (r : option (t * UniverseSnapshot)) : option string :=
  option_map (fun p => master_root (snd p)) r.

(** C5 (corrected). The same state snapshotted at two wall-clock times
    gets two different digests: the digest carries the timestamp. *)
Lemma snapshot_digest_depends_on_time :
  root_of (fold_snapshot new 0) <> root_of (fold_snapshot new 1).
Proof. vm_compute. congruence. Qed.

(** C5, as amended. The digest of [fold_snapshot] is
    [encode_master_root] of the new height and the timestamp: two states
    with the same current height, whatever their balances, snapshotted at
    the same time get the same digest, and one state snapshotted at two
    different times gets two different digests. *)
Theorem snapshot_digest_of_height_and_time (s1 s2 : t) (now : Z)
    (Hh : current_height s1 = current_height s2) :
  root_of (fold_snapshot s1 now) = root_of (fold_snapshot s2 now)
  /\ forall s' sn, fold_snapshot s1 now = Some (s', sn) ->
       master_root sn = encode_master_root (height sn) now
       /\ timestamp_ms sn = now
       /\ forall other, other <> now ->
            root_of (fold_snapshot s1 other) <> root_of (fold_snapshot s1 now).
Proof.
  unfold current_height, fold_snapshot, root_of in *.
  split.
  - destruct (last_snapshot s1), (last_snapshot s2); simpl in *; try discriminate;
      [inversion Hh as [Hh']; rewrite Hh'; destruct (u64_checked_add _ 1)|];
      reflexivity.
  - intros s' sn H.
    destruct (last_snapshot s1) as [sn0|];
      [destruct (u64_checked_add (height sn0) 1) as [h|]|]; inversion H; subst;
      cbn [option_map snd master_root timestamp_ms height];
      (split; [reflexivity|]; split; [reflexivity|]);
      intros other Hne He; apply Hne;
      apply (f_equal (fun o => match o with Some x => x | None => EmptyString end)) in He;
      cbv beta iota in He; exact (encode_master_root_time_inj _ _ _ He).
Qed.

Definition other_balances : t :=
  set_balance new (mkLabelId "TEST" "fun") (mkBalance 100).

Lemma snapshot_digest_of_height_and_time_witness :
  current_height new = current_height other_balances
  /\ root_of (fold_snapshot new 7) = root_of (fold_snapshot other_balances 7).
Proof.
  split; [reflexivity|].
  exact (proj1 (snapshot_digest_of_height_and_time new other_balances 7 eq_refl)).
Defined.

(** C6 (corrected). Two snapshots in a row, even at the same time, give
    different digests: the first folds height 0, the second height 1. *)
Lemma snapshot_twice_differs :
  match fold_snapshot new 0 with
  | Some (s1, sn1) => root_of (fold_snapshot s1 0) <> Some (master_root sn1)
  | None => False
  end.
Proof. vm_compute. congruence. Qed.

(** C6, as amended. Each [fold_snapshot] bumps the height by one (the
    first snapshot of a state without one gets height 0), so two
    consecutive calls return different digests whatever their times. *)
Theorem snapshot_twice_bumps_height (s s1 s2 : t) (sn1 sn2 : UniverseSnapshot) (t1 t2 : Z)
    (H1 : fold_snapshot s t1 = Some (s1, sn1))
    (H2 : fold_snapshot s1 t2 = Some (s2, sn2)) :
  height sn1 = match last_snapshot s with Some sn0 => height sn0 + 1 | None => 0 end
  /\ height sn2 = height sn1 + 1 /\ master_root sn1 <> master_root sn2.
Proof.
  unfold fold_snapshot in *.
  assert (Hh1 : height sn1
                = match last_snapshot s with Some sn0 => height sn0 + 1 | None => 0 end).
  { destruct (last_snapshot s) as [sn0|];
      [unfold u64_checked_add in H1; destruct (_ <=? u64_max)|];
      inversion H1; reflexivity. }
  split; [exact Hh1|].
  assert (Hl : last_snapshot s1 = Some sn1).
  { destruct (last_snapshot s) as [sn0|];
      [destruct (u64_checked_add (height sn0) 1)|]; inversion H1; reflexivity. }
  assert (Hr : master_root sn1 = encode_master_root (height sn1) t1).
  { destruct (last_snapshot s) as [sn0|];
      [destruct (u64_checked_add (height sn0) 1)|]; inversion H1; reflexivity. }
  rewrite Hl in H2. unfold u64_checked_add in H2.
  destruct (N.leb_spec (height sn1 + 1) u64_max); inversion H2; subst; simpl.
  split; [reflexivity|].
  rewrite Hr. intros He. apply encode_master_root_height_inj in He. lia.
Qed.

Lemma snapshot_twice_bumps_height_witness :
  match fold_snapshot new 0 with
  | Some (s1, sn1) =>
      match fold_snapshot s1 0 with
      | Some (s2, sn2) => master_root sn1 <> master_root sn2
      | None => False
      end
  | None => False
  end.
Proof.
  destruct (fold_snapshot new 0) as [[s1 sn1]|] eqn:E1; [|discriminate].
  destruct (fold_snapshot s1 0) as [[s2 sn2]|] eqn:E2.
  - exact (proj2 (proj2 (snapshot_twice_bumps_height new s1 s2 sn1 sn2 0 0 E1 E2))).
  - vm_compute in E1. inversion E1; subst. vm_compute in E2. discriminate.
Defined.

End SnapshotClaims.

(* ------------------------------------------------------------------ *)
(** ** Height *)

Module HeightClaims.
Import UniverseInner.

(** C7 (corrected). In corelib the height lives in the last snapshot, and
    [fold_snapshot], which is no tick, moves it from 0 to 1. *)
Lemma height_bumped_by_snapshot :
  match Snapshot.fold_snapshot UniverseState.new 0 with
  | Some (s0, _) =>
      Snapshot.current_height s0 = Some 0
      /\ option_map (fun p => Snapshot.current_height (fst p))
           (Snapshot.fold_snapshot s0 5) = Some (Some 1)
  | None => False
  end.
Proof. vm_compute. split; reflexivity. Qed.

Lemma saturating_add_shift (h c : N) :
  h <= u64_max ->
  N.min (u64_saturating_add h 1 + c) u64_max = N.min (h + (1 + c)) u64_max.
Proof.
  intros Hh. unfold u64_saturating_add.
  repeat match goal with
         | |- context [N.min ?a ?b] => destruct (N.min_spec a b) as [[? ->]|[? ->]]
         end; lia.
Qed.

Lemma count_ticks_cons (o : op) (os : list op) :
  count_ticks (o :: os)
  = match o with OpTick => S (count_ticks os) | OpSnapshot => count_ticks os end.
Proof. destruct o; reflexivity. Qed.

Lemma run_block_height (u : t) (os : list op) :
  block_height u <= u64_max ->
  block_height (run u os) = N.min (block_height u + N.of_nat (count_ticks os)) u64_max.
Proof.
  revert u. induction os as [|o os IH]; intros u Hu.
  - simpl. rewrite N.add_0_r, N.min_l; auto.
  - unfold run in *. rewrite count_ticks_cons. destruct o; simpl; rewrite IH.
    + simpl. rewrite saturating_add_shift by exact Hu. f_equal. lia.
    + simpl. unfold u64_saturating_add. apply N.le_min_r.
    + reflexivity.
    + exact Hu.
Qed.

(** C7, as amended. In the api node the height starts at 0; after any
    sequence of calls it has grown by exactly the number of [tick_once]
    calls, saturating at [u64::MAX] ([snapshot] leaves it alone), so it
    never decreases. In corelib each [fold_snapshot] folds the last
    snapshot's height plus one (0 for the first one) and records it. *)
Theorem height_counts_ticks (u : t) (os : list op) (Hu : block_height u <= u64_max) :
  block_height new = 0
  /\ block_height (run u os) = N.min (block_height u + N.of_nat (count_ticks os)) u64_max
  /\ block_height u <= block_height (run u os)
  /\ (forall s now s' sn, Snapshot.fold_snapshot s now = Some (s', sn) ->
        height sn = match Snapshot.current_height s with Some h => h + 1 | None => 0 end
        /\ Snapshot.current_height s' = Some (height sn)).
Proof.
  split; [reflexivity|].
  rewrite run_block_height by exact Hu.
  split; [reflexivity|]. split.
  - destruct (N.min_spec (block_height u + N.of_nat (count_ticks os)) u64_max); lia.
  - intros s now s' sn H.
    unfold Snapshot.fold_snapshot, Snapshot.current_height, u64_checked_add in *.
    destruct (UniverseState.last_snapshot s) as [sn0|]; simpl in *.
    + destruct (N.leb_spec (height sn0 + 1) u64_max); inversion H; subst; auto.
    + inversion H; subst; auto.
Qed.

Lemma height_counts_ticks_witness :
  block_height new <= u64_max
  /\ block_height (run new [OpTick; OpSnapshot; OpTick]) = 2.
Proof.
  split; [vm_compute; discriminate|].
  rewrite (proj1 (proj2 (height_counts_ticks new [OpTick; OpSnapshot; OpTick]
                            ltac:(vm_compute; discriminate)))).
  vm_compute. reflexivity.
Defined.

End HeightClaims.

(* ------------------------------------------------------------------ *)
(** ** Interest accrual *)

Module InterestClaims.
Import InfinityBank.

Lemma accrue_loop_some (n : nat) (f v r : N) :
  accrue_loop n f v = Some r -> r = iter_floor n f v.
Proof.
  revert v. induction n as [|k IH]; intros v H; simpl in *.
  - congruence.
  - unfold u128_checked_mul in H.
    destruct (N.leb_spec (v * f) u128_max); [apply IH, H | discriminate].
Qed.

Lemma accrue_loop_none (n : nat) (f v : N) :
  accrue_loop n f v = None ->
  exists i, (i < n)%nat /\ u128_max < iter_floor i f v * f.
Proof.
  revert v. induction n as [|k IH]; intros v H; simpl in *.
  - discriminate.
  - unfold u128_checked_mul in H.
    destruct (N.leb_spec (v * f) u128_max).
    + destruct (IH _ H) as [i [Hi Ho]]. exists (S i). split; [lia | exact Ho].
    + exists O. split; [lia | exact H0].
Qed.

Lemma iter_floor_grows (n : nat) (v : N) : v <= iter_floor n phi_tick_factor_ppm v.
Proof.
  revert v. induction n as [|k IH]; intros v; simpl; [lia|].
  transitivity (v * phi_tick_factor_ppm / 1000000); [|apply IH].
  apply N.div_le_lower_bound; unfold phi_tick_factor_ppm; lia.
Qed.

Lemma uniform_update_lookup (g : N -> N) (k : string) :
  (forall now b b', accrue_interest now b = Some b' -> ledger b' = g <$> ledger b) ->
  forall now b,
    option_map (fun b' => ledger b' !! k) (accrue_interest now b)
    = option_map (fun _ => g <$> ledger b !! k) (accrue_interest now b).
Proof.
  intros Hg now b.
  destruct (accrue_interest now b) as [b'|] eqn:E; simpl; [|reflexivity].
  rewrite (Hg _ _ _ E), lookup_fmap. reflexivity.
Qed.

(** C8 (corrected). No single balance update describes every call of
    [accrue_interest]: from the default bank, a call 8 ms after the last
    tick takes 1_000_000 to 1_000_020, one 16 ms after takes it to
    1_000_040. *)
Lemma accrue_interest_not_uniform :
  ~ exists g : N -> N, forall now b b',
      accrue_interest now b = Some b' -> ledger b' = g <$> ledger b.
Proof.
  intros [g Hg].
  pose proof (uniform_update_lookup g ";9132077554;comet;" Hg 8 (default_bank 0)) as A1.
  pose proof (uniform_update_lookup g ";9132077554;comet;" Hg 16 (default_bank 0)) as A2.
  vm_compute in A1, A2. congruence.
Qed.

(** C8, as amended. [accrue_interest] changes nothing when the clock has
    not advanced past [last_tick_ms]. Otherwise, with
    [ticks = max(1, (now - last) / 8)], it replaces every balance [v] by
    [ticks] iterations of [v |-> floor (v * per_tick_factor_ppm / 1_000_000)]
    (truncation) and sets [last_tick_ms] to [now]; it fails only by a
    [u128] overflow of some intermediate product. *)
Theorem accrue_interest_spec (now : Z) (b : t) :
  match accrue_interest now b with
  | Some b' =>
      ((now <= last_tick_ms b)%Z -> b' = b)
      /\ ((last_tick_ms b < now)%Z ->
          last_tick_ms b' = now
          /\ per_tick_factor_ppm b' = per_tick_factor_ppm b
          /\ interest_apy_bps b' = interest_apy_bps b
          /\ (1 <= tick_count now (last_tick_ms b))%nat
          /\ forall k, ledger b' !! k
                = iter_floor (tick_count now (last_tick_ms b)) (per_tick_factor_ppm b)
                    <$> ledger b !! k)
  | None =>
      (last_tick_ms b < now)%Z
      /\ exists k v i, ledger b !! k = Some v
         /\ (i < tick_count now (last_tick_ms b))%nat
         /\ u128_max < iter_floor i (per_tick_factor_ppm b) v * per_tick_factor_ppm b
  end.
Proof.
  unfold accrue_interest.
  destruct (Z.leb_spec now (last_tick_ms b)) as [Hle|Hlt].
  - split; [reflexivity | lia].
  - case_bool_decide as HF.
    + split; [lia|]. intros _. simpl.
      split; [reflexivity|]. split; [reflexivity|]. split; [reflexivity|].
      split; [unfold tick_count; lia|].
      intros k. rewrite lookup_fmap.
      destruct (ledger b !! k) as [v|] eqn:Ek; simpl; [|reflexivity].
      f_equal.
      destruct (map_Forall_lookup_1 _ _ _ _ HF Ek) as [r Hr].
      rewrite Hr. simpl. apply accrue_loop_some, Hr.
    + split; [exact Hlt|].
      apply map_not_Forall in HF; [|intros; apply _].
      destruct HF as [k [v [Ek Hn]]].
      apply eq_None_not_Some in Hn.
      destruct (accrue_loop_none _ _ _ Hn) as [i [Hi Ho]].
      exists k, v, i. auto.
Qed.

(** C10. One per-tick update [b |-> (b * 1_000_020) / 1_000_000], iterated
    any number of times, never lowers a balance whenever it completes. *)
Theorem accrue_loop_never_decreases (n : nat) (v r : N)
    (H : accrue_loop n phi_tick_factor_ppm v = Some r) : v <= r.
Proof. rewrite (accrue_loop_some _ _ _ _ H). apply iter_floor_grows. Qed.

Lemma accrue_loop_never_decreases_witness :
  accrue_loop 2 phi_tick_factor_ppm 80000 = Some 80002 /\ 80000 <= 80002.
Proof.
  split; [vm_compute; reflexivity|].
  apply (accrue_loop_never_decreases 2 80000 80002). vm_compute. reflexivity.
Defined.

End InterestClaims.

(* ================================================================== *)
(** * Further properties of the ledger and router code *)

(* ------------------------------------------------------------------ *)
(** ** corelib ledger *)

Module CorelibFacts.
Import UniverseState Ledger.

(** [balance_of] after [set_balance] reads the balance just written, and
    every other label is unaffected. *)
Theorem set_balance_balance_of (s : t) (l l' : LabelId) (b : Balance) :
  balance_of (set_balance s l b) l' = if decide (l = l') then b else balance_of s l'.
Proof.
  unfold balance_of, set_balance; simpl.
  destruct (decide (l = l')) as [->|Hne].
  - rewrite lookup_insert_eq. reflexivity.
  - rewrite lookup_insert_ne by exact Hne. reflexivity.
Qed.

(** [apply_transfer], whatever its outcome, leaves the balance of every
    account other than the sender and the receiver unchanged. *)
Theorem apply_transfer_other_accounts (s : t) (tx : TransferTx) (l : LabelId)
    (Hf : l <> from tx) (Ht : l <> to tx) :
  balance_of (fst (apply_transfer s tx)) l = balance_of s l.
Proof.
  unfold apply_transfer.
  destruct (tx_amount tx =? 0); [reflexivity|].
  destruct (amount (balance_of s (from tx)) <? tx_amount tx); [reflexivity|].
  simpl. unfold balance_of, set_balance; simpl.
  rewrite !lookup_insert_ne by congruence. reflexivity.
Qed.

Definition fun_label : LabelId := mkLabelId "TEST" "fun".
Definition third_label : LabelId := mkLabelId "TEST" "third".

Lemma apply_transfer_other_accounts_witness :
  third_label <> from (mkTransferTx TransferClaims.genesis fun_label 10)
  /\ third_label <> to (mkTransferTx TransferClaims.genesis fun_label 10)
  /\ balance_of (fst (apply_transfer TransferClaims.seeded
                        (mkTransferTx TransferClaims.genesis fun_label 10))) third_label
     = balance_of TransferClaims.seeded third_label.
Proof.
  assert (H1 : third_label <> TransferClaims.genesis) by discriminate.
  assert (H2 : third_label <> fun_label) by discriminate.
  split; [exact H1|]. split; [exact H2|].
  apply (apply_transfer_other_accounts _ (mkTransferTx TransferClaims.genesis fun_label 10) _ H1 H2).
Defined.

(** Between distinct accounts, a transfer with [0 < amount <= balance]
    succeeds, debits the sender and credits the receiver by [amount]. *)
Theorem apply_transfer_distinct_effect (s : t) (tx : TransferTx)
    (Hne : from tx <> to tx) (Hpos : 0 < tx_amount tx)
    (Hle : tx_amount tx <= amount (balance_of s (from tx))) :
  snd (apply_transfer s tx) = inl tt
  /\ amount (balance_of (fst (apply_transfer s tx)) (from tx))
     = amount (balance_of s (from tx)) - tx_amount tx
  /\ amount (balance_of (fst (apply_transfer s tx)) (to tx))
     = amount (balance_of s (to tx)) + tx_amount tx.
Proof.
  rewrite (apply_transfer_ok_distinct s tx Hne Hpos Hle). simpl.
  split; [reflexivity|]. split.
  - unfold balance_of at 1; simpl.
    rewrite lookup_insert_ne by congruence. rewrite lookup_insert_eq. reflexivity.
  - unfold balance_of at 1; simpl. rewrite lookup_insert_eq. reflexivity.
Qed.

Lemma apply_transfer_distinct_effect_witness :
  amount (balance_of (fst (apply_transfer TransferClaims.seeded
            (mkTransferTx TransferClaims.genesis fun_label 10))) fun_label) = 10.
Proof.
  destruct (apply_transfer_distinct_effect TransferClaims.seeded
              (mkTransferTx TransferClaims.genesis fun_label 10))
    as [_ [_ H]]; [discriminate | simpl; lia | vm_compute; discriminate |].
  cbn [to from tx_amount] in H. rewrite H. vm_compute. reflexivity.
Defined.

(** A sequence of successful transfers, none of them a self-transfer,
    keeps the sum of all balances. *)
Theorem transfers_between_distinct_accounts_conserve (s s' : t) (txs : list TransferTx)
    (Hd : Forall (fun tx => from tx <> to tx) txs)
    (Hrun : run_transfers s txs = Some s') :
  total_supply (balances s') = total_supply (balances s).
Proof. exact (run_transfers_conserves_distinct s s' txs Hd Hrun). Qed.

Lemma transfers_between_distinct_accounts_conserve_witness :
  total_supply (balances (default TransferClaims.seeded
     (run_transfers TransferClaims.seeded
        [mkTransferTx TransferClaims.genesis fun_label 30;
         mkTransferTx fun_label third_label 5])))
  = total_supply (balances TransferClaims.seeded).
Proof.
  apply (transfers_between_distinct_accounts_conserve _ _
           [mkTransferTx TransferClaims.genesis fun_label 30;
            mkTransferTx fun_label third_label 5]).
  - repeat constructor; discriminate.
  - vm_compute. reflexivity.
Defined.

(** [fold_snapshot] never changes the balances, and [apply_transfer]
    never changes the last snapshot (hence the height). *)
Theorem snapshot_and_transfer_separate (s s' : t) (sn : UniverseSnapshot) (now : Z)
    (tx : TransferTx) :
  (Snapshot.fold_snapshot s now = Some (s', sn) -> balances s' = balances s)
  /\ last_snapshot (fst (apply_transfer s tx)) = last_snapshot s.
Proof.
  split.
  - unfold Snapshot.fold_snapshot.
    destruct (last_snapshot s) as [sn0|];
      [destruct (u64_checked_add (height sn0) 1)|]; intros H; inversion H; reflexivity.
  - unfold apply_transfer.
    destruct (tx_amount tx =? 0); [reflexivity|].
    destruct (amount (balance_of s (from tx)) <? tx_amount tx); reflexivity.
Qed.

End CorelibFacts.

(* ------------------------------------------------------------------ *)
(** ** Base-8 text and Ω paths *)

Module EncodingFacts.
Import Octal OmegaPath RustStr.

Lemma octal_digit_of_N (d : N) : d < 8 -> octal_digit_value (ascii_of_N (48 + d)) = Some d.
Proof.
  intros Hd. unfold octal_digit_value.
  rewrite N_ascii_embedding by lia.
  destruct (N.leb_spec 48 (48 + d)); [|lia].
  destruct (N.ltb_spec (48 + d) 56); [|lia].
  simpl. f_equal. lia.
Qed.

Lemma octal_digits_value (f : nat) (n : N) (acc : string) (a : N) :
  n < 8 ^ N.of_nat f ->
  exists k, octal_value a (octal_digits f n acc) = octal_value (a * 8 ^ k + n) acc.
Proof.
  revert n acc a. induction f as [|f IH]; intros n acc a Hn.
  - simpl in Hn. exists 0. simpl. f_equal. lia.
  - simpl. pose proof (N.mod_lt n 8 ltac:(lia)) as Hm.
    destruct (N.ltb_spec n 8) as [Hlt|Hge].
    + exists 1. simpl. rewrite octal_digit_of_N by exact Hm.
      rewrite N.mod_small by exact Hlt. first [reflexivity | f_equal; lia].
    + destruct (IH (n / 8) (String (ascii_of_N (48 + n mod 8)) acc) a) as [k Hk].
      { apply N.Div0.div_lt_upper_bound.
        rewrite Nat2N.inj_succ, N.pow_succ_r' in Hn. exact Hn. }
      exists (k + 1). rewrite Hk. simpl. rewrite octal_digit_of_N by exact Hm.
      f_equal. rewrite N.pow_add_r.
      pose proof (N.div_mod n 8 ltac:(lia)). nia.
Qed.

Lemma octal_fuel_enough (v : N) : v < 8 ^ N.of_nat (S (N.to_nat (N.size v))).
Proof.
  rewrite Nat2N.inj_succ, N2Nat.id.
  eapply N.lt_le_trans; [apply N.size_gt|].
  transitivity (8 ^ N.size v).
  - apply N.pow_le_mono_l. lia.
  - apply N.pow_le_mono_r; lia.
Qed.

Lemma octal_value_to_octal (v : N) : octal_value 0 (to_octal v) = Some v.
Proof.
  unfold to_octal.
  destruct (octal_digits_value _ v EmptyString 0 (octal_fuel_enough v)) as [k Hk].
  rewrite Hk. simpl. first [reflexivity | f_equal; lia].
Qed.

(** [encode_octal] (through [to_octal_u64]) renders its value as base-8
    digits that read back as exactly that value, with base 8: the
    rendering is lossless, hence injective. *)
Theorem encode_octal_roundtrip (v : N) :
  octal_value 0 (value_octal (encode_octal v)) = Some (value_decimal (encode_octal v))
  /\ base (encode_octal v) = 8
  /\ forall w, to_octal_u64 v = to_octal_u64 w -> v = w.
Proof.
  split; [apply octal_value_to_octal|]. split; [reflexivity|].
  intros w H. unfold to_octal_u64 in H.
  pose proof (octal_value_to_octal v) as Hv. pose proof (octal_value_to_octal w) as Hw.
  rewrite H in Hv. congruence.
Qed.

(** [infinity_base] writes the big-endian value of the hash bytes in base
    8 between [;∞;sha-less;] and [;]; leading zero bytes do not change the
    text. *)
Theorem infinity_base_value (hash : list Byte.byte) :
  (exists digits, infinity_base hash = (";∞;sha-less;" ++ digits ++ ";")%string
                  /\ octal_value 0 digits = Some (from_bytes_be hash))
  /\ infinity_base (Byte.x00 :: hash) = infinity_base hash.
Proof.
  split.
  - exists (to_octal (from_bytes_be hash)). split; [reflexivity|].
    apply octal_value_to_octal.
  - reflexivity.
Qed.

Lemma split_on_no_char (c : ascii) (a : string) :
  has_char c a = false -> split_on c a = [a].
Proof.
  induction a as [|x a IH]; simpl; [reflexivity|].
  destruct (ascii_dec x c); [discriminate|]. intros H. rewrite IH by exact H.
  reflexivity.
Qed.

Lemma split_on_app (c : ascii) (a b : string) :
  has_char c a = false -> split_on c (a ++ String c b) = a :: split_on c b.
Proof.
  induction a as [|x a IH]; simpl; intros H.
  - destruct (ascii_dec c c); [reflexivity | contradiction].
  - destruct (ascii_dec x c); [discriminate|]. rewrite IH by exact H. reflexivity.
Qed.

(** For a phone and a label without [';'], the path built by
    [label_universe_path] splits on [';'] back into the phone, the label
    and the fixed suffix: the path determines both components. *)
Theorem label_universe_path_split (phone label : string)
    (Hp : has_char ";" phone = false) (Hl : has_char ";" label = false) :
  split_on ";" (path (label_universe_path phone label))
  = ["" ; phone; label; "∞"; "∞"; "∞"; "∞"; "∞"; "∞"; "∞"; "∞"; "hash"; ""]%string.
Proof.
  unfold label_universe_path, path.
  change (";" ++ phone ++ ";" ++ label ++ ";∞;∞;∞;∞;∞;∞;∞;∞;hash;")%string
    with (String ";" (phone ++ String ";" (label ++ String ";" "∞;∞;∞;∞;∞;∞;∞;∞;hash;")))%string.
  simpl split_on at 1. destruct (ascii_dec ";" ";"); [|contradiction].
  rewrite split_on_app by exact Hp. rewrite split_on_app by exact Hl.
  reflexivity.
Qed.

Lemma label_universe_path_split_witness :
  split_on ";" (path (label_universe_path "9132077554" "comet"))
  = ["" ; "9132077554"; "comet"; "∞"; "∞"; "∞"; "∞"; "∞"; "∞"; "∞"; "∞"; "hash"; ""]%string.
Proof. apply label_universe_path_split; reflexivity. Defined.

End EncodingFacts.

(* ------------------------------------------------------------------ *)
(** ** DNS keys and frame dispatch *)

Module RouterFacts.
Import RustStr OmegaRouter.

Lemma lower_ascii_semi (x : ascii) : lower_ascii x = ";"%char <-> x = ";"%char.
Proof.
  destruct x as [[] [] [] [] [] [] [] []]; vm_compute;
    split; intros H; (reflexivity || discriminate H).
Qed.

Lemma lower_ascii_idem (x : ascii) : lower_ascii (lower_ascii x) = lower_ascii x.
Proof. destruct x as [[] [] [] [] [] [] [] []]; vm_compute; reflexivity. Qed.

Lemma lowercase_idem (s : string) : to_ascii_lowercase (to_ascii_lowercase s) = to_ascii_lowercase s.
Proof. induction s; simpl; [reflexivity|]. rewrite lower_ascii_idem, IHs. reflexivity. Qed.

Lemma lowercase_app (a b : string) :
  to_ascii_lowercase (a ++ b) = (to_ascii_lowercase a ++ to_ascii_lowercase b)%string.
Proof. induction a; simpl; [reflexivity|]. rewrite IHa. reflexivity. Qed.

Lemma lowercase_empty (s : string) : to_ascii_lowercase s = EmptyString <-> s = EmptyString.
Proof. destruct s; simpl; split; congruence. Qed.

Lemma has_char_lowercase (s : string) :
  has_char ";" (to_ascii_lowercase s) = has_char ";" s.
Proof.
  induction s as [|x s IH]; simpl; [reflexivity|].
  destruct (ascii_dec (lower_ascii x) ";") as [E|E];
    destruct (ascii_dec x ";") as [F|F]; auto.
  - exfalso. apply F, lower_ascii_semi, E.
  - exfalso. apply E, lower_ascii_semi, F.
Qed.

Lemma split_on_lowercase (s : string) :
  split_on ";" (to_ascii_lowercase s) = map to_ascii_lowercase (split_on ";" s).
Proof.
  induction s as [|x s IH]; simpl; [reflexivity|].
  rewrite IH.
  destruct (ascii_dec (lower_ascii x) ";") as [E|E];
    destruct (ascii_dec x ";") as [F|F].
  - reflexivity.
  - exfalso. apply F, lower_ascii_semi, E.
  - exfalso. apply E, lower_ascii_semi, F.
  - destruct (split_on ";" s); reflexivity.
Qed.

Lemma split_on_pieces (c : ascii) (s : string) :
  Forall (fun p => has_char c p = false) (split_on c s).
Proof.
  induction s as [|x s IH]; simpl; [repeat constructor|].
  destruct (ascii_dec x c).
  - constructor; [reflexivity | exact IH].
  - destruct (split_on c s) as [|r rs]; inversion IH; subst;
      repeat constructor; simpl; try (destruct (ascii_dec x c); [contradiction|]); auto.
Qed.

Lemma has_char_app (c : ascii) (a b : string) :
  has_char c (a ++ b) = has_char c a || has_char c b.
Proof. induction a as [|x a IH]; simpl; [reflexivity|]. destruct (ascii_dec x c); auto. Qed.

Lemma join_no_semi (l : list string) :
  Forall (fun p => has_char ";" p = false) l -> has_char ";" (join "." l) = false.
Proof.
  induction l as [|x l IH]; intros H; [reflexivity|].
  inversion H; subst. destruct l as [|y l']; [assumption|].
  change (join "." (x :: y :: l')) with (x ++ "." ++ join "." (y :: l'))%string.
  rewrite !has_char_app, H2, IH by assumption. reflexivity.
Qed.

Lemma lowercase_join_map (l : list string) :
  to_ascii_lowercase (join "." l) = join "." (map to_ascii_lowercase l).
Proof.
  induction l as [|x l IH]; [reflexivity|].
  destruct l as [|y l']; [reflexivity|].
  change (join "." (x :: y :: l')) with (x ++ "." ++ join "." (y :: l'))%string.
  change (map to_ascii_lowercase (x :: y :: l'))
    with (to_ascii_lowercase x :: map to_ascii_lowercase (y :: l')).
  change (join "." (to_ascii_lowercase x :: map to_ascii_lowercase (y :: l')))
    with (to_ascii_lowercase x ++ "." ++ join "." (map to_ascii_lowercase (y :: l')))%string.
  rewrite !lowercase_app, IH. reflexivity.
Qed.

Lemma lowercase_join (l : list string) :
  to_ascii_lowercase (join "." (map to_ascii_lowercase l)) = join "." (map to_ascii_lowercase l).
Proof.
  rewrite lowercase_join_map, map_map. f_equal. apply map_ext, lowercase_idem.
Qed.

Lemma filter_lowercase (l : list string) :
  List.filter (fun seg => negb (String.eqb seg "")) (map to_ascii_lowercase l)
  = map to_ascii_lowercase (List.filter (fun seg => negb (String.eqb seg "")) l).
Proof.
  induction l as [|x l IH]; simpl; [reflexivity|].
  rewrite IH. destruct x; reflexivity.
Qed.

(** [canonical_key] ignores ASCII case: lowercasing the namespace first
    gives the same key. *)
Theorem canonical_key_case_insensitive (ns : string) :
  canonical_key (to_ascii_lowercase ns) = canonical_key ns.
Proof.
  unfold canonical_key.
  rewrite split_on_lowercase, filter_lowercase, map_map.
  f_equal. apply map_ext. apply lowercase_idem.
Qed.

(** [canonical_key] is idempotent: a canonical key is its own key. *)
Theorem canonical_key_idempotent (ns : string) :
  canonical_key (canonical_key ns) = canonical_key ns.
Proof.
  unfold canonical_key.
  set (segs := List.filter (fun seg => negb (String.eqb seg "")) (split_on ";" ns)).
  assert (Hsegs : Forall (fun p => has_char ";" p = false) (map to_ascii_lowercase segs)).
  { apply Forall_map. pose proof (split_on_pieces ";" ns) as Hp.
    subst segs. induction Hp as [|x l Hx Hl IH]; simpl; [constructor|].
    destruct (negb (String.eqb x "")); [constructor; [|exact IH]|exact IH].
    rewrite has_char_lowercase. exact Hx. }
  rewrite EncodingFacts.split_on_no_char by (apply join_no_semi, Hsegs).
  destruct (join "." (map to_ascii_lowercase segs)) as [|c rest] eqn:E; [reflexivity|].
  transitivity (to_ascii_lowercase (String c rest)); [reflexivity|].
  rewrite <- E. apply lowercase_join.
Qed.

Lemma split_on_nonempty (c : ascii) (s : string) : split_on c s <> [].
Proof.
  destruct s as [|x s]; simpl; [discriminate|].
  destruct (ascii_dec x c); [discriminate|]. destruct (split_on c s); discriminate.
Qed.

Lemma split_on_length (c : ascii) (s : string) : (1 <= length (split_on c s))%nat.
Proof.
  destruct (split_on c s) eqn:E; [exfalso; exact (split_on_nonempty _ _ E) | simpl; lia].
Qed.

Lemma join_cons_char (x : ascii) (r : string) (rs : list string) :
  join "." (String x r :: rs) = String x (join "." (r :: rs)).
Proof. destruct rs; reflexivity. Qed.

Lemma join_split (s : string) : join "." (split_on "." s) = s.
Proof.
  induction s as [|x s IH]; [reflexivity|]. simpl split_on.
  destruct (split_on "." s) as [|r rs] eqn:E;
    [exfalso; exact (split_on_nonempty _ _ E)|].
  destruct (ascii_dec x ".") as [->|Hx].
  - change (join "." ("" :: r :: rs)) with ("" ++ "." ++ join "." (r :: rs))%string.
    rewrite IH. reflexivity.
  - rewrite join_cons_char, IH. reflexivity.
Qed.

Lemma fallback_loop_prefixes (f : nat) (parts : list string) :
  (length parts <= f)%nat ->
  fallback_loop f parts
  = map (fun k => join "." (firstn k parts)) (rev (List.seq 1 (length parts - 1))).
Proof.
  revert parts. induction f as [|f IH]; intros parts Hf; simpl.
  - assert (length parts - 1 = 0)%nat as -> by lia. reflexivity.
  - destruct (Nat.ltb_spec 1 (length parts)) as [Hlt|Hge].
    + assert (Hlen : length (removelast parts) = pred (length parts))
        by (rewrite removelast_firstn_len, firstn_length_le; lia).
      rewrite IH by lia. rewrite Hlen.
      replace (length parts - 1)%nat with (S (pred (length parts) - 1)) by lia.
      rewrite seq_S, rev_app_distr. cbn [rev app map].
      f_equal.
      * rewrite removelast_firstn_len. do 3 f_equal. lia.
      * apply map_ext_in. intros k Hk. apply in_rev, in_seq in Hk.
        rewrite firstn_removelast by lia. reflexivity.
    + assert (length parts - 1 = 0)%nat as -> by lia. reflexivity.
Qed.

Lemma first_record_none (records : gmap string DnsRecord) (keys : list string) :
  first_record records keys = None <-> Forall (fun k => records !! k = None) keys.
Proof.
  induction keys as [|k ks IH]; simpl; [split; auto|].
  destruct (records !! k) eqn:E.
  - split; [discriminate | intros H; inversion H; congruence].
  - rewrite IH. split; [intros H; constructor; auto | intros H; inversion H; auto].
Qed.

Fixpoint last_char (s : string) : option ascii :=
  match s with
  | EmptyString => None
  | String x s' => match last_char s' with Some c => Some c | None => Some x end
  end.

Lemma last_char_app (a b : string) :
  last_char (a ++ b)%string = match last_char b with Some c => Some c | None => last_char a end.
Proof.
  induction a as [|x a IH]; simpl.
  - change (("" ++ b)%string) with b. destruct (last_char b); reflexivity.
  - rewrite IH. destruct (last_char b); reflexivity.
Qed.

(** [fallback_keys] lists the proper prefixes of the dotted key, longest
    first: with [parts] the ['.']-separated segments of the key, the keys
    are the joins of the first [n-1], [n-2], ..., [1] segments. *)
Theorem fallback_keys_prefixes (key : string) :
  fallback_keys key
  = map (fun k => join "." (firstn k (split_on "." key)))
        (rev (List.seq 1 (length (split_on "." key) - 1))).
Proof. unfold fallback_keys. apply fallback_loop_prefixes. lia. Qed.

(** [resolve] answers "unmapped" exactly when neither the canonical key
    nor any of its ['.']-prefixes (of at least one segment) has a record. *)
Theorem resolve_unmapped_iff (records : gmap string DnsRecord) (ns : string) :
  resolve records ns
    = ("dns::" ++ canonical_key ns ++ " → (unmapped) request router-registration")%string
  <-> forall j, (1 <= j <= length (split_on "." (canonical_key ns)))%nat ->
        records !! join "." (firstn j (split_on "." (canonical_key ns))) = None.
Proof.
  unfold resolve. set (key := canonical_key ns).
  pose proof (split_on_length "." key) as Hlen1.
  assert (Hkey : join "." (firstn (length (split_on "." key)) (split_on "." key)) = key)
    by (rewrite firstn_all; apply join_split).
  assert (Hfb : first_record records (fallback_keys key) = None <->
     forall j, (1 <= j < length (split_on "." key))%nat ->
       records !! join "." (firstn j (split_on "." key)) = None).
  { rewrite first_record_none. unfold fallback_keys.
    rewrite fallback_loop_prefixes by lia.
    rewrite Forall_map, List.Forall_forall. split.
    - intros H j Hj. apply H. rewrite <- in_rev, in_seq. lia.
    - intros H j Hj. rewrite <- in_rev, in_seq in Hj. apply H. lia. }
  destruct (records !! key) as [r|] eqn:Ek.
  - split.
    + intros H. exfalso. apply (f_equal last_char) in H.
      rewrite !last_char_app in H. simpl in H. discriminate H.
    + intros H. exfalso. specialize (H (length (split_on "." key))).
      rewrite Hkey in H. rewrite H in Ek by lia. discriminate Ek.
  - destruct (first_record records (fallback_keys key)) as [r|] eqn:Ef.
    + split.
      * intros H. exfalso. apply (f_equal last_char) in H.
        rewrite !last_char_app in H. simpl in H. discriminate H.
      * intros H. exfalso.
        assert (Hn : Some r = None) by (apply Hfb; intros j Hj; apply H; lia).
        discriminate Hn.
    + split; [intros _ | intros _; reflexivity].
      intros j Hj.
      destruct (Nat.eq_dec j (length (split_on "." key))) as [->|Hne];
        [rewrite Hkey; exact Ek|].
      apply (proj1 Hfb); [reflexivity | lia].
Qed.

(** [dispatch] always produces exactly one note and never changes the DNS
    records; only [Query] and [Event] frames (routed to the bank) change
    the services, and only they can fail, when the bank panics. *)
Theorem dispatch_effects (now : Z) (svc : OmegaServices) (frame : FrameEnvelope) :
  match dispatch now svc frame with
  | Some (svc', notes) =>
      length notes = 1%nat /\ dns svc' = dns svc
      /\ (kind frame <> Query -> kind frame <> Event -> svc' = svc)
  | None =>
      (kind frame = Query \/ kind frame = Event)
      /\ bank_handle now (banking svc) frame = None
  end.
Proof.
  unfold dispatch. destruct (kind frame);
    try (split; [reflexivity | split; [reflexivity | auto]]);
    (destruct (bank_handle now (banking svc) frame) as [[b' note]|];
      [split; [reflexivity | split; [reflexivity | intros; congruence]] | split; auto]).
Qed.


End RouterFacts.

(* ------------------------------------------------------------------ *)
(** ** The Infinity bank *)

Module BankFacts.
Import InfinityBank.

(** The sum of all balances of a bank's ledger. *)
Definition ledger_total (m : gmap string N) : N := map_fold (fun _ v acc => v + acc) 0 m.

Lemma ledger_total_insert (m : gmap string N) (k : string) (v : N) :
  ledger_total (<[k := v]> m) + default 0 (m !! k) = ledger_total m + v.
Proof.
  unfold ledger_total.
  destruct (m !! k) as [w|] eqn:Hk; simpl.
  - rewrite <- (insert_id m k w Hk) at 2.
    rewrite <- (insert_delete_eq m k v), <- (insert_delete_eq m k w).
    rewrite !map_fold_insert_L; try apply lookup_delete_eq;
      try (intros; lia).
  - rewrite map_fold_insert_L; [lia | intros; lia | exact Hk].
Qed.

Lemma iter_floor_ge (n : nat) (f v : N) : 1000000 <= f -> v <= iter_floor n f v.
Proof.
  intros Hf. revert v. induction n as [|k IH]; intros v; simpl; [lia|].
  transitivity (v * f / 1000000); [|apply IH].
  apply N.div_le_lower_bound; nia.
Qed.

Definition wb_bank : t :=
  mk (<[";TEST;genesis;" := 100]> (<[";TEST;fun;" := 7]> ∅)) 6180 0 phi_tick_factor_ppm.
Definition wb_payload : TransferPayload :=
  mkPayload (Some ";TEST;genesis;") (Some ";TEST;fun;") (Some 30).

(** [handle_transfer] panics (a [u128] overflow) exactly when the amount
    is positive, covered by the sender's balance, and the receiver's
    balance plus the amount exceeds [u128::MAX]. *)
Theorem handle_transfer_panics_iff (b : t) (p : TransferPayload) :
  handle_transfer b p = None <->
  (0 < default 0 (p_amount p)
   /\ default 0 (p_amount p) <= balance_of b (default ";<missing-from>;" (p_from p))
   /\ u128_max < balance_of b (default ";<missing-to>;" (p_to p)) + default 0 (p_amount p)).
Proof.
  unfold handle_transfer, balance_of.
  destruct (N.eqb_spec (default 0 (p_amount p)) 0) as [E|E];
    [split; [discriminate | lia]|].
  destruct (N.ltb_spec (default 0 (ledger b !! default ";<missing-from>;" (p_from p)))
              (default 0 (p_amount p))) as [L|L];
    [split; [discriminate | lia]|].
  unfold u128_checked_add.
  destruct (N.leb_spec (default 0 (ledger b !! default ";<missing-to>;" (p_to p))
                        + default 0 (p_amount p)) u128_max) as [Le|Gt];
    split; intros Hx; try discriminate; try lia; reflexivity.
Qed.

(** Whatever its outcome, [handle_transfer] keeps the interest settings
    and the clock, changes no ledger entry other than the sender's and the
    receiver's, and a rejected transfer (zero amount or insufficient
    balance) returns the bank unchanged. *)
Theorem handle_transfer_touches_only_parties (b : t) (p : TransferPayload) :
  match handle_transfer b p with
  | Some (b', _) =>
      interest_apy_bps b' = interest_apy_bps b
      /\ last_tick_ms b' = last_tick_ms b
      /\ per_tick_factor_ppm b' = per_tick_factor_ppm b
      /\ (forall l, l <> default ";<missing-from>;" (p_from p) ->
                    l <> default ";<missing-to>;" (p_to p) ->
                    ledger b' !! l = ledger b !! l)
      /\ ((default 0 (p_amount p) = 0
           \/ balance_of b (default ";<missing-from>;" (p_from p)) < default 0 (p_amount p))
          -> b' = b)
  | None => True
  end.
Proof.
  unfold handle_transfer, balance_of.
  destruct (N.eqb_spec (default 0 (p_amount p)) 0) as [E|E];
    [repeat split; auto|].
  destruct (N.ltb_spec (default 0 (ledger b !! default ";<missing-from>;" (p_from p)))
              (default 0 (p_amount p))) as [L|L];
    [repeat split; auto|].
  destruct (u128_checked_add _ _) as [new_to|]; [|exact I].
  cbn [ledger interest_apy_bps last_tick_ms per_tick_factor_ppm].
  split; [reflexivity|]. split; [reflexivity|]. split; [reflexivity|]. split.
  - intros l Hf Ht. rewrite !lookup_insert_ne by congruence. reflexivity.
  - intros [H|H]; lia.
Qed.

(** A successful transfer between two different labels keeps the sum of
    all ledger balances. *)
Theorem handle_transfer_conserves_total (b : t) (p : TransferPayload)
    (Hne : default ";<missing-from>;" (p_from p) <> default ";<missing-to>;" (p_to p)) :
  match handle_transfer b p with
  | Some (b', _) => ledger_total (ledger b') = ledger_total (ledger b)
  | None => True
  end.
Proof.
  unfold handle_transfer.
  set (from := default ";<missing-from>;" (p_from p)) in *.
  set (to := default ";<missing-to>;" (p_to p)) in *.
  set (amt := default 0 (p_amount p)).
  destruct (amt =? 0); [reflexivity|].
  destruct (default 0 (ledger b !! from) <? amt) eqn:Hlt; [reflexivity|].
  apply N.ltb_ge in Hlt.
  unfold u128_checked_add.
  destruct (default 0 (ledger b !! to) + amt <=? u128_max); [|exact I].
  cbn [ledger].
  pose proof (ledger_total_insert (<[from := default 0 (ledger b !! from) - amt]> (ledger b))
                to (default 0 (ledger b !! to) + amt)) as H1.
  pose proof (ledger_total_insert (ledger b) from (default 0 (ledger b !! from) - amt)) as H2.
  rewrite lookup_insert_ne in H1 by congruence.
  lia.
Qed.

Lemma handle_transfer_conserves_total_witness :
  (";TEST;genesis;" <> ";TEST;fun;")%string
  /\ match handle_transfer wb_bank wb_payload with
     | Some (b', _) => ledger_total (ledger b') = ledger_total (ledger wb_bank)
     | None => True
     end.
Proof.
  assert (H : default ";<missing-from>;" (p_from wb_payload)
              <> default ";<missing-to>;" (p_to wb_payload)) by discriminate.
  split; [discriminate | exact (handle_transfer_conserves_total wb_bank wb_payload H)].
Defined.

(** [accrue_interest] keeps the set of labels and the interest settings,
    and moves the clock to [max now last_tick_ms]: it never goes back. It
    can only fail when the clock has advanced. *)
Theorem accrue_interest_keeps_accounts (now : Z) (b : t) :
  match accrue_interest now b with
  | Some b1 =>
      (forall l, is_Some (ledger b1 !! l) <-> is_Some (ledger b !! l))
      /\ last_tick_ms b1 = Z.max now (last_tick_ms b)
      /\ per_tick_factor_ppm b1 = per_tick_factor_ppm b
      /\ interest_apy_bps b1 = interest_apy_bps b
  | None => (last_tick_ms b < now)%Z
  end.
Proof.
  unfold accrue_interest.
  destruct (Z.leb_spec now (last_tick_ms b)).
  - split; [tauto|]. split; [lia | auto].
  - case_bool_decide; [|assumption].
    cbn [ledger last_tick_ms per_tick_factor_ppm interest_apy_bps].
    split; [intros l; rewrite lookup_fmap; apply fmap_is_Some|].
    split; [lia | auto].
Qed.

(** Accruing twice at the same instant is accruing once: the second call
    finds [now <= last_tick_ms] and changes nothing. *)
Theorem accrue_interest_idempotent (now : Z) (b : t) :
  match accrue_interest now b with
  | Some b1 => accrue_interest now b1 = Some b1
  | None => True
  end.
Proof.
  unfold accrue_interest at 1.
  destruct (Z.leb_spec now (last_tick_ms b)).
  - cbv beta iota. unfold accrue_interest.
    destruct (Z.leb_spec now (last_tick_ms b)); [reflexivity | lia].
  - case_bool_decide; [|exact I].
    cbv beta iota zeta. unfold accrue_interest at 1.
    cbn [last_tick_ms]. rewrite Z.leb_refl. reflexivity.
Qed.

(** With a per-tick factor of at least 1_000_000 ppm, a completed
    [accrue_interest] lowers no balance. *)
Theorem accrue_interest_never_lowers (now : Z) (b : t)
    (Hf : 1000000 <= per_tick_factor_ppm b) :
  match accrue_interest now b with
  | Some b1 => forall l, balance_of b l <= balance_of b1 l
  | None => True
  end.
Proof.
  unfold accrue_interest, balance_of.
  destruct (Z.leb_spec now (last_tick_ms b)); [intros; lia|].
  case_bool_decide as HF; [|exact I].
  intros l. cbn [ledger]. rewrite lookup_fmap.
  destruct (ledger b !! l) as [v|] eqn:E; cbn [fmap option_fmap option_map default]; [|lia].
  destruct (map_Forall_lookup_1 _ _ _ _ HF E) as [r Hr]. rewrite Hr. cbn [default].
  rewrite (InterestClaims.accrue_loop_some _ _ _ _ Hr). apply iter_floor_ge, Hf.
Qed.

Lemma accrue_interest_never_lowers_witness :
  1000000 <= per_tick_factor_ppm (default_bank 0)
  /\ match accrue_interest 8 (default_bank 0) with
     | Some b1 => forall l, balance_of (default_bank 0) l <= balance_of b1 l
     | None => True
     end.
Proof.
  assert (H : 1000000 <= per_tick_factor_ppm (default_bank 0))
    by (cbn; unfold phi_tick_factor_ppm; lia).
  split; [exact H | exact (accrue_interest_never_lowers 8 (default_bank 0) H)].
Defined.

End BankFacts.
